(** * madhatter: middleware chains with a per-request cancellable context

    A shallow embedding of [madhatter.go].  Two pieces of mutable state are
    kept apart:
    - the [World] that request handling runs in (the cancellation cells of the
      contexts created so far and what was written to the response sinks);
    - the [Store] of backing arrays that Go slices of constructors point into.

    Go functions that may have effects are functions into the monad [M], which
    threads the [World] and records a panic. *)

From stdpp Require Import base option list gmap strings.

(** ** The world a request is handled in *)

(** A [http.ResponseWriter] is the identity of a response sink. *)
Definition ResponseWriter := nat.

(** What the code needs of a [*http.Request]; the pointer may be nil. *)
Record Request := mkRequest { req_method : string; req_url : string }.

Record World := mkWorld {
  (** one cell per cancellable context ever created: [true] once cancelled *)
  cancel_cells : gmap nat bool;
  (** the chunks written to the response sinks, oldest first *)
  written : list (ResponseWriter * string)
}.

Inductive PanicValue :=
  | NilDereference
  | IndexOutOfRange
  | PanicWith (msg : string).

Inductive Result (A : Type) :=
  | Returned (a : A) (w : World)
  | Panicked (v : PanicValue) (w : World).
Arguments Returned {A} a w.
Arguments Panicked {A} v w.

Definition world_of {A} (r : Result A) : World :=
  match r with Returned _ w => w | Panicked _ w => w end.

Definition M (A : Type) : Type := World -> Result A.

#[global] Instance M_ret : MRet M := fun A a w => Returned a w.

#[global] Instance M_bind : MBind M := fun A B k m w =>
  match m w with
  | Returned a w' => k a w'
  | Panicked v w' => Panicked v w'
  end.

Definition mpanic {A} (v : PanicValue) : M A := fun w => Panicked v w.

(** [defer cleanup; body]: the deferred call runs when the body returns and
    when it panics, and the panic then goes on unwinding. *)
Definition with_defer {A} (cleanup : World -> World) (body : M A) : M A :=
  fun w => match body w with
           | Returned a w' => Returned a (cleanup w')
           | Panicked v w' => Panicked v (cleanup w')
           end.

(** ** Contexts *)

Inductive Context :=
  | Background
  | cancelCtx (parent : Context) (cell : nat)
  | valueCtx (parent : Context) (key val : string).

(** [ctx.Value(key)] *)
Fixpoint Value (ctx : Context) (key : string) : option string :=
  match ctx with
  | Background => None
  | cancelCtx parent _ => Value parent key
  | valueCtx parent k v => if decide (k = key) then Some v else Value parent key
  end.

(** [ctx.Err() != nil]: a context is cancelled once its own cell or the cell
    of an ancestor is. *)
Fixpoint Err (w : World) (ctx : Context) : bool :=
  match ctx with
  | Background => false
  | cancelCtx parent cell =>
      match cancel_cells w !! cell with
      | Some true => true
      | _ => Err w parent
      end
  | valueCtx parent _ _ => Err w parent
  end.

Definition WithValue (parent : Context) (key val : string) : Context :=
  valueCtx parent key val.

(** The cell [context.WithCancel] allocates in a given world. *)
Definition new_cell (w : World) : nat := fresh (dom (cancel_cells w)).

Definition alloc_cell (w : World) : World :=
  mkWorld (<[new_cell w := false]> (cancel_cells w)) (written w).

(** The [CancelFunc] of a cell. *)
Definition cancel (cell : nat) (w : World) : World :=
  mkWorld (<[cell := true]> (cancel_cells w)) (written w).

(** [context.WithCancel(parent)] returns the child and the cell its
    [CancelFunc] closes. *)
Definition WithCancel (parent : Context) : M (Context * nat) :=
  fun w => Returned (cancelCtx parent (new_cell w), new_cell w) (alloc_cell w).

(** [w.Write(data)] *)
Definition Write (rw : ResponseWriter) (data : string) : M unit :=
  fun w => Returned tt (mkWorld (cancel_cells w) (written w ++ [(rw, data)])).

(** What a recorder holds: the chunks written to one sink, concatenated. *)
Fixpoint body_of (rw : ResponseWriter) (log : list (ResponseWriter * string)) : string :=
  match log with
  | [] => ""%string
  | (rw', data) :: rest =>
      if decide (rw' = rw) then String.append data (body_of rw rest)
      else body_of rw rest
  end.

(** ** Handlers *)

(** The method set of [Handler]. *)
Definition ServeFn := Context -> ResponseWriter -> option Request -> M unit.

(** A value of interface type [Handler]: nil, or something with a
    [ServeHTTP] method. *)
Definition Handler := option ServeFn.

(** A value of func type [HandlerFunc]: nil, or a function. *)
Definition HandlerFunc := option ServeFn.

(** [func (f HandlerFunc) ServeHTTP(ctx, w, r) { f(ctx, w, r) }] *)
Definition HandlerFunc_ServeHTTP (f : HandlerFunc) : ServeFn :=
  fun ctx w r =>
    match f with
    | Some fn => fn ctx w r
    | None => mpanic NilDereference
    end.

(** The conversion of a [HandlerFunc] to the interface [Handler]: the
    interface value is not nil, also when the function is. *)
Definition HandlerFunc_as_Handler (f : HandlerFunc) : Handler :=
  Some (HandlerFunc_ServeHTTP f).

(** [h.ServeHTTP(ctx, w, r)] on an interface value. *)
Definition Handler_ServeHTTP (h : Handler) : ServeFn :=
  match h with
  | Some serve => serve
  | None => fun _ _ _ => mpanic NilDereference
  end.

(** [http.Handler] and its method. *)
Definition HttpServeFn := ResponseWriter -> option Request -> M unit.
Definition HttpHandler := option HttpServeFn.

Definition http_ServeHTTP (h : HttpHandler) : HttpServeFn :=
  match h with
  | Some serve => serve
  | None => fun _ _ => mpanic NilDereference
  end.

(** [http.HandlerFunc(f)] for a function literal [f]. *)
Definition http_HandlerFunc (f : HttpServeFn) : HttpHandler := Some f.

(** The body of the closure [createRootHandler] returns. *)
Definition rootServe (h : Handler) : HttpServeFn :=
  fun w r =>
    p ← WithCancel Background;
    with_defer (cancel (snd p)) (Handler_ServeHTTP h (fst p) w r).

Definition createRootHandler (h : Handler) : M HttpHandler :=
  mret (http_HandlerFunc (rootServe h)).

Definition adaptFinal (h : HttpHandler) : Handler :=
  HandlerFunc_as_Handler (Some (fun _ w r => http_ServeHTTP h w r)).

(** ** Constructors and slices of constructors *)

(** A value of func type [Constructor]: nil, or a function.  A constructor
    runs in the world: it may write, panic, or do nothing but wrap.  It does
    not reach the arrays of a chain: the field [constructors] is unexported
    and [New] copies what it is given. *)
Definition Constructor := option (Handler -> M Handler).

(** [c(h)] *)
Definition call_constructor (c : Constructor) (h : Handler) : M Handler :=
  match c with
  | Some f => f h
  | None => mpanic NilDereference
  end.

(** Backing arrays live in a store, at the address of their position; an
    allocation extends the store. *)
Abbreviation Store := (list (list Constructor)).

(** A slice header: pointer to the backing array (none for a nil slice),
    offset of the first element in it, length and capacity. *)
Record Slice := mkSlice {
  s_ptr : option nat;
  s_off : nat;
  s_len : nat;
  s_cap : nat
}.

Definition nilSlice : Slice := mkSlice None 0 0 0.

Definition backing (σ : Store) (s : Slice) : list Constructor :=
  match s_ptr s with
  | Some l => default [] (σ !! l)
  | None => []
  end.

(** The sequence a slice denotes. *)
Definition elems (σ : Store) (s : Slice) : list Constructor :=
  take (s_len s) (drop (s_off s) (backing σ s)).

(** [s[i]]; [None] is the index-out-of-range panic. *)
Definition index (σ : Store) (s : Slice) (i : nat) : option Constructor :=
  if decide (i < s_len s) then backing σ s !! (s_off s + i) else None.

(** [s[i] = v]; [None] is the index-out-of-range panic. *)
Definition store_at (σ : Store) (s : Slice) (i : nat) (v : Constructor) : option Store :=
  if decide (i < s_len s) then
    match s_ptr s with
    | Some l => Some (alter (<[s_off s + i := v]>) l σ)
    | None => None
    end
  else None.

(** [s[lo:]]; [None] is the slice-bounds panic. *)
Definition slice_from (s : Slice) (lo : nat) : option Slice :=
  if decide (lo ≤ s_len s) then
    Some (mkSlice (s_ptr s) (s_off s + lo) (s_len s - lo) (s_cap s - lo))
  else None.

(** [make([]Constructor, n)]: a new array of [n] nil constructors. *)
Definition go_make (n : nat) (σ : Store) : Slice * Store :=
  (mkSlice (Some (length σ)) 0 n n, σ ++ [replicate n None]).

(** [copy(dst, src)]: the first [min(len(dst), len(src))] elements of [src]
    overwrite those of [dst]; returns how many. *)
Definition go_copy (dst src : Slice) (σ : Store) : nat * Store :=
  let n := min (s_len dst) (s_len src) in
  (n, match s_ptr dst with
      | Some l => alter (list_inserts (s_off dst) (take n (elems σ src))) l σ
      | None => σ
      end).

(** The slice a variadic parameter receives for arguments written out one by
    one: nil for none, a new array otherwise. *)
Definition variadic (cs : list Constructor) (σ : Store) : Slice * Store :=
  match cs with
  | [] => (nilSlice, σ)
  | _ => (mkSlice (Some (length σ)) 0 (length cs) (length cs), σ ++ [cs])
  end.

Record Chain := mkChain {
  constructors : Slice;
  finalize : option (Handler -> M HttpHandler)
}.

(** [finalize(h)] through the field, which is nil in the zero [Chain]. *)
Definition call_finalize (f : option (Handler -> M HttpHandler)) (h : Handler)
  : M HttpHandler :=
  match f with
  | Some fin => fin h
  | None => mpanic NilDereference
  end.

(** ** The middleware of the test suite *)

Definition nl : string := String (Ascii.ascii_of_nat 10) EmptyString.

(** [tagMiddleware(tag)]: adds its tag to the value the context carries
    under ["tag"] and calls the inner handler with the new context. *)
Definition tagMiddleware (tag : string) : Constructor :=
  Some (fun h : Handler =>
    mret (HandlerFunc_as_Handler (Some (fun ctx w r =>
      let existingTag := default ""%string (Value ctx "tag") in
      let ctx' := WithValue ctx "tag" (String.append existingTag tag) in
      Handler_ServeHTTP h ctx' w r)))).

(** [testApp]: writes the tags collected so far, then ["app\n"]. *)
Definition testApp : HandlerFunc :=
  Some (fun ctx w r =>
    let existingTag := default ""%string (Value ctx "tag") in
    Write w (String.append existingTag (String.append "app" nl))).

(** A constructor that answers by itself and never calls the inner handler. *)
Definition shortCircuit (answer : string) : Constructor :=
  Some (fun _ : Handler =>
    mret (HandlerFunc_as_Handler (Some (fun _ w _ => Write w answer)))).

(** A handler that writes, then panics. *)
Definition panickingApp : HandlerFunc :=
  Some (fun _ w _ => _ ← Write w "partial"; mpanic (PanicWith "boom")).

(** The body [http.NotFound] writes. *)
Definition notFoundBody : string := String.append "404 page not found" nl.

(** [http.DefaultServeMux] with no route registered, for requests as
    [http.NewRequest] makes them: the [ServeHTTP] of [ServeMux] reads the request
    first, so a nil request is a nil dereference, and no pattern matches,
    so any other request is answered by [http.NotFound]. *)
Definition emptyMux : HttpHandler :=
  Some (fun w r =>
    match r with
    | None => mpanic NilDereference
    | Some _ => Write w notFoundBody
    end).

(** [append] that allocates exactly what is needed, and one that doubles. *)
Definition exactGrowth : nat -> nat -> nat := fun _ _ => 0.
Definition doublingGrowth : nat -> nat -> nat := fun _ n => n.

Definition emptyWorld : World := mkWorld ∅ [].

(** Build a handler, then serve one request with it. *)
Definition serve_with (build : M HttpHandler) (w : ResponseWriter)
    (r : option Request) : M unit :=
  hh ← build; http_ServeHTTP hh w r.

(** The body a recorder holds after a run, or [None] after a panic. *)
Definition recorded (rw : ResponseWriter) (res : Result unit) : option string :=
  match res with
  | Returned _ w => Some (body_of rw (written w))
  | Panicked _ _ => None
  end.

(** The zero value of [Chain], as [var c Chain] declares it. *)
Definition zeroChain : Chain := mkChain nilSlice None.

(** The tags of a chain of [tagMiddleware]s, joined in chain order. *)
Definition join (tags : list string) : string :=
  foldr String.append ""%string tags.

(** The context a handler is called with below [tagMiddleware]s of the
    given tags, outermost first, when the outermost is called with [ctx]. *)
Fixpoint tag_ctx (ctx : Context) (tags : list string) : Context :=
  match tags with
  | [] => ctx
  | tag :: rest =>
      tag_ctx (WithValue ctx "tag"
                 (String.append (default ""%string (Value ctx "tag")) tag)) rest
  end.

(** A constructor that reports to a sink when it is called, and returns
    the handler it was given. *)
Definition announcing (rw : ResponseWriter) (tag : string) : Constructor :=
  Some (fun h : Handler => _ ← Write rw tag; mret h).

(** The world after the given chunks were written to a sink. *)
Definition log_to (rw : ResponseWriter) (chunks : list string) (w : World) : World :=
  mkWorld (cancel_cells w) (written w ++ map (pair rw) chunks).

(** A constructor that returns a handler and leaves the world as it is. *)
Definition pure_constructor (c : Constructor) : Prop :=
  ∀ h w, ∃ h', call_constructor c h w = Returned h' w.

(** The terminal step [Then] starts from. *)
Definition resolve (mux : HttpHandler) (h : Handler) : Handler :=
  match h with
  | Some _ => h
  | None => adaptFinal mux
  end.

(** A store with two arrays, a chain over the first and a slice over the
    second. *)
Definition demoStore : Store :=
  [[tagMiddleware "t1,"; tagMiddleware "t2,"]; [tagMiddleware "t3,"]].
Definition demoSlice : Slice := mkSlice (Some 0) 0 2 2.
Definition demoExtra : Slice := mkSlice (Some 1) 0 1 1.
Definition demoChain : Chain := mkChain demoSlice (Some createRootHandler).

(** A concrete slice header is backed by a concrete store. *)
Ltac backed :=
  split; [simpl; lia | split; [simpl; lia | intros ? [= <-]; simpl; lia]].

Section Madhatter.

(** [http.DefaultServeMux], as a [http.Handler]. *)
Variable DefaultServeMux : HttpHandler.

(** How much capacity beyond the needed length [append] gives the array it
    allocates when it has to grow, from the old capacity and the needed
    length: the Go runtime's choice. *)
Variable growslack : nat -> nat -> nat.

(** [append(s, xs...)] *)
Definition go_append (s xs : Slice) (σ : Store) : Slice * Store :=
  let n := s_len s + s_len xs in
  if decide (n ≤ s_cap s) then
    (mkSlice (s_ptr s) (s_off s) n (s_cap s),
     match s_ptr s with
     | Some l => alter (list_inserts (s_off s + s_len s) (elems σ xs)) l σ
     | None => σ
     end)
  else
    let slack := growslack (s_cap s) n in
    (mkSlice (Some (length σ)) 0 n (n + slack),
     σ ++ [elems σ s ++ elems σ xs ++ replicate slack None]).

(** [New(constructors...)], the parameter being the slice passed. *)
Definition New (cs : Slice) (σ : Store) : Chain * Store :=
  let c := mkChain nilSlice (Some createRootHandler) in
  let r := go_append (constructors c) cs σ in
  (mkChain (fst r) (finalize c), snd r).

(** [New(c1, ..., cn)] with the constructors written out. *)
Definition New_args (cs : list Constructor) (σ : Store) : Chain * Store :=
  let v := variadic cs σ in New (fst v) (snd v).

(** The loop of [Then], entered with [n = i + 1]. *)
Fixpoint Then_loop (σ : Store) (s : Slice) (n : nat) (final : Handler) : M Handler :=
  match n with
  | 0 => mret final
  | S i =>
      match index σ s i with
      | Some c => final' ← call_constructor c final; Then_loop σ s i final'
      | None => mpanic IndexOutOfRange
      end
  end.

Definition Then (c : Chain) (h : Handler) (σ : Store) : M HttpHandler :=
  let final :=
    match h with
    | Some _ => h
    | None => adaptFinal DefaultServeMux
    end in
  final' ← Then_loop σ (constructors c) (s_len (constructors c)) final;
  call_finalize (finalize c) final'.

Definition ThenFunc (c : Chain) (fn : HandlerFunc) (σ : Store) : M HttpHandler :=
  match fn with
  | None => Then c None σ
  | Some _ => Then c (HandlerFunc_as_Handler fn) σ
  end.

(** [c.Append(constructors...)]; [None] is a panic. *)
Definition Append (c : Chain) (cs : Slice) (σ : Store) : option (Chain * Store) :=
  let mk := go_make (s_len (constructors c) + s_len cs) σ in
  let newCons := fst mk in
  let cp1 := go_copy newCons (constructors c) (snd mk) in
  rest ← slice_from newCons (s_len (constructors c));
  let cp2 := go_copy rest cs (snd cp1) in
  Some (New newCons (snd cp2)).

(** [c.Append(x1, ..., xn)] with the constructors written out. *)
Definition Append_args (c : Chain) (cs : list Constructor) (σ : Store)
  : option (Chain * Store) :=
  let v := variadic cs σ in Append c (fst v) (snd v).

(** ** What the specification compares the code with *)

(** [c1(c2(...cn(h)))]: the arguments are evaluated first, so the last
    constructor is called first and the first one wraps everything. *)
Fixpoint compose (cs : list Constructor) (h : Handler) : M Handler :=
  match cs with
  | [] => mret h
  | c :: rest => inner ← compose rest h; call_constructor c inner
  end.

(** A slice header that the store backs. *)
Definition valid_slice (σ : Store) (s : Slice) : Prop :=
  s_len s ≤ s_cap s ∧
  s_off s + s_cap s ≤ length (backing σ s) ∧
  ∀ l, s_ptr s = Some l → l < length σ.

(** The array of a slice, if it has one, does not exist in the store. *)
Definition fresh_in (σ : Store) (s : Slice) : Prop :=
  ∀ l, s_ptr s = Some l → length σ ≤ l.

(** The chains a program can hold: the field [finalize] is unexported and
    [New] alone assigns it, so it is nil, in the zero [Chain], or the root
    boundary. *)
Definition package_chain (c : Chain) : Prop :=
  finalize c = None ∨ finalize c = Some createRootHandler.

(** Two stores that differ at most in the array slice [s] points to. *)
Definition same_except (s : Slice) (σ1 σ2 : Store) : Prop :=
  ∀ l, s_ptr s ≠ Some l → σ1 !! l = σ2 !! l.


(** ** The monad, pointwise *)

Lemma bind_assoc {A B C} (m : M A) (f : A -> M B) (g : B -> M C) w :
  ((m ≫= f) ≫= g) w = (m ≫= (fun a => f a ≫= g)) w.
Proof. unfold mbind, M_bind. destruct (m w); reflexivity. Qed.

Lemma bind_ext_r {A B} (m : M A) (f g : A -> M B) w :
  (∀ a w', f a w' = g a w') → (m ≫= f) w = (m ≫= g) w.
Proof. intros Hfg. unfold mbind, M_bind. destruct (m w); auto. Qed.

Lemma bind_ext_l {A B} (m1 m2 : M A) (f : A -> M B) w :
  m1 w = m2 w → (m1 ≫= f) w = (m2 ≫= f) w.
Proof. intros Hm. unfold mbind, M_bind. rewrite Hm. reflexivity. Qed.

Lemma bind_ret_r {A} (m : M A) w : (m ≫= mret) w = m w.
Proof. unfold mbind, M_bind, mret, M_ret. destruct (m w); reflexivity. Qed.

(** ** Slices and the store *)

Lemma lookup_elems σ s i :
  elems σ s !! i = if decide (i < s_len s) then backing σ s !! (s_off s + i) else None.
Proof.
  unfold elems. case_decide.
  - rewrite lookup_take_lt by done. apply lookup_drop.
  - apply lookup_take_ge. lia.
Qed.

Lemma index_elems σ s i : index σ s i = elems σ s !! i.
Proof. unfold index. symmetry. apply lookup_elems. Qed.

Lemma length_elems σ s : valid_slice σ s → length (elems σ s) = s_len s.
Proof.
  intros (Hlen & Hcap & _). unfold elems.
  rewrite length_take, length_drop. lia.
Qed.

Lemma backing_app σ ext s :
  (∀ l, s_ptr s = Some l → l < length σ) → backing (σ ++ ext) s = backing σ s.
Proof.
  intros Hptr. unfold backing. destruct (s_ptr s) as [l|]; [|done].
  rewrite lookup_app_l; [done | auto].
Qed.

Lemma elems_app σ ext s : valid_slice σ s → elems (σ ++ ext) s = elems σ s.
Proof. intros (_ & _ & Hptr). unfold elems. by rewrite backing_app. Qed.

Lemma valid_slice_app σ ext s : valid_slice σ s → valid_slice (σ ++ ext) s.
Proof.
  intros (Hlen & Hcap & Hptr). repeat split; [done | |].
  - by rewrite backing_app.
  - intros l Hl. rewrite length_app. specialize (Hptr l Hl). lia.
Qed.

Lemma valid_nilSlice σ : valid_slice σ nilSlice.
Proof. repeat split; simpl; [lia | lia | discriminate]. Qed.

Lemma valid_nonempty_has_array σ s :
  valid_slice σ s → 0 < s_len s → ∃ l, s_ptr s = Some l ∧ l < length σ.
Proof.
  intros (Hlen & Hcap & Hptr) Hpos. unfold backing in Hcap.
  destruct (s_ptr s) as [l|]; [eauto | simpl in Hcap; lia].
Qed.

(** A slice keeps its elements when the store changes elsewhere. *)
Lemma elems_same_backing σ1 σ2 s :
  (∀ l, s_ptr s = Some l → σ1 !! l = σ2 !! l) → elems σ1 s = elems σ2 s.
Proof.
  intros Hsame. unfold elems, backing.
  destruct (s_ptr s) as [l|]; [|done]. by rewrite (Hsame l).
Qed.

(** Whatever happens to the array of a slice that did not exist in [σ], the
    slices of [σ] keep their elements. *)
Lemma elems_frame σ ext σ'' s s' :
  valid_slice σ s → fresh_in σ s' → same_except s' σ'' (σ ++ ext) →
  elems σ'' s = elems σ s.
Proof.
  intros Hs Hfresh Hsame. rewrite <- (elems_app σ ext s Hs).
  apply elems_same_backing. intros l Hl. apply Hsame.
  intros Hl'. destruct Hs as (_ & _ & Hptr).
  specialize (Hptr l Hl). specialize (Hfresh l Hl'). lia.
Qed.

Lemma store_at_same_except σ s i v σ' :
  store_at σ s i v = Some σ' → same_except s σ' σ.
Proof.
  unfold store_at, same_except. case_decide; [|done].
  destruct (s_ptr s) as [l|]; [|done]. intros [= <-] l' Hl'.
  apply list_lookup_alter_ne. congruence.
Qed.

Lemma alter_last (f : list Constructor → list Constructor) (σ : Store) arr :
  alter f (length σ) (σ ++ [arr]) = σ ++ [f arr].
Proof.
  replace (length σ) with (length σ + 0) by lia.
  by rewrite alter_app_r.
Qed.

Lemma backing_last (σ : Store) arr off n cap :
  backing (σ ++ [arr]) (mkSlice (Some (length σ)) off n cap) = arr.
Proof. unfold backing. simpl. by rewrite list_lookup_middle. Qed.

Lemma valid_slice_last (σ : Store) arr n cap :
  n ≤ cap → cap ≤ length arr →
  valid_slice (σ ++ [arr]) (mkSlice (Some (length σ)) 0 n cap).
Proof.
  intros Hn Hcap. split; [done|]. split.
  - rewrite backing_last. simpl. lia.
  - simpl. intros l [= <-]. rewrite length_app. simpl. lia.
Qed.

Lemma elems_last (σ : Store) arr n cap :
  elems (σ ++ [arr]) (mkSlice (Some (length σ)) 0 n cap) = take n arr.
Proof. unfold elems. rewrite backing_last. simpl. by rewrite drop_0. Qed.

(** ** [New] *)

(** [New] only allocates, and what it returns denotes the sequence of the
    slice it was given, in an array of its own. *)
Lemma New_spec σ xs :
  valid_slice σ xs →
  ∃ ext, snd (New xs σ) = σ ++ ext ∧
    elems (σ ++ ext) (constructors (fst (New xs σ))) = elems σ xs ∧
    s_len (constructors (fst (New xs σ))) = s_len xs ∧
    valid_slice (σ ++ ext) (constructors (fst (New xs σ))) ∧
    fresh_in σ (constructors (fst (New xs σ))) ∧
    finalize (fst (New xs σ)) = Some createRootHandler.
Proof.
  intros Hxs. pose proof (length_elems σ xs Hxs) as Hlen.
  unfold New, go_append. simpl.
  case_decide as Hn; simpl.
  - exists []. assert (s_len xs = 0) as Hz by lia.
    rewrite app_nil_r. unfold elems at 1. simpl.
    rewrite Hz in Hlen. apply nil_length_inv in Hlen. rewrite Hlen, Hz.
    split; [done|]. split; [done|]. split; [done|].
    split; [apply valid_nilSlice|]. split; [|done].
    intros l Hl. discriminate.
  - eexists. split; [reflexivity|].
    rewrite elems_last.
    rewrite take_app_length' by (rewrite Hlen; done).
    split; [done|]. split; [done|]. split; [|split; [|done]].
    + apply valid_slice_last; [lia|].
      rewrite length_app, length_replicate, Hlen. done.
    + intros l [= <-]. done.
Qed.

Lemma variadic_spec cs σ :
  ∃ ext, snd (variadic cs σ) = σ ++ ext ∧
    elems (σ ++ ext) (fst (variadic cs σ)) = cs ∧
    s_len (fst (variadic cs σ)) = length cs ∧
    valid_slice (σ ++ ext) (fst (variadic cs σ)).
Proof.
  destruct cs as [|c cs].
  - exists []. simpl. rewrite app_nil_r.
    split; [done|]. split; [done|]. split; [done|]. apply valid_nilSlice.
  - eexists. split; [reflexivity|]. set (l := c :: cs).
    unfold variadic; fold l. simpl. rewrite elems_last.
    split; [by apply take_ge|]. split; [done|].
    by apply valid_slice_last.
Qed.

(** ** [Append] *)

Lemma Append_spec σ c xs :
  valid_slice σ (constructors c) → valid_slice σ xs →
  ∃ c' ext, Append c xs σ = Some (c', σ ++ ext) ∧
    elems (σ ++ ext) (constructors c') = elems σ (constructors c) ++ elems σ xs ∧
    s_len (constructors c') = s_len (constructors c) + s_len xs ∧
    valid_slice (σ ++ ext) (constructors c') ∧
    fresh_in σ (constructors c') ∧
    finalize c' = Some createRootHandler.
Proof.
  intros Hc Hxs.
  pose proof (length_elems _ _ Hc) as Hlc. pose proof (length_elems _ _ Hxs) as Hlx.
  set (lc := s_len (constructors c)) in *. set (lx := s_len xs) in *.
  set (ec := elems σ (constructors c)) in *. set (ex := elems σ xs) in *.
  unfold Append. fold lc lx.
  unfold go_make, slice_from. simpl. fold lc lx.
  rewrite decide_True by lia. simpl.
  rewrite (elems_app σ _ _ Hc). fold ec.
  rewrite (Nat.min_r (lc + lx) lc) by lia.
  rewrite (Nat.min_r (lc + lx - lc) lx) by lia.
  rewrite (take_ge ec) by lia.
  rewrite alter_last. rewrite replicate_add.
  rewrite list_inserts_0_r by (rewrite length_replicate; lia).
  rewrite (elems_app σ _ _ Hxs). fold ex.
  rewrite (take_ge ex) by lia.
  rewrite alter_last.
  replace (list_inserts lc ex (ec ++ replicate lx None))
    with (ec ++ ex).
  2:{ replace lc with (length ec + 0) by lia. rewrite list_inserts_app_r.
      f_equal. rewrite <- (app_nil_r (replicate lx None)).
      rewrite list_inserts_0_r by (rewrite length_replicate; lia).
      by rewrite app_nil_r. }
  set (newCons := mkSlice (Some (length σ)) 0 (lc + lx) (lc + lx)).
  set (σ3 := σ ++ [ec ++ ex]).
  assert (valid_slice σ3 newCons) as Hnew.
  { apply valid_slice_last; [done|]. rewrite length_app. lia. }
  assert (elems σ3 newCons = ec ++ ex) as Hel.
  { unfold σ3, newCons. rewrite elems_last.
    apply take_ge. rewrite length_app. lia. }
  destruct (New_spec σ3 newCons Hnew) as (ext & Hst & Helems & Hlen & Hval & Hfresh & Hfin).
  exists (fst (New newCons σ3)), ([ec ++ ex] ++ ext).
  rewrite app_assoc. fold σ3.
  split; [by rewrite <- Hst; destruct (New newCons σ3)|].
  split; [by rewrite Helems|].
  split; [by rewrite Hlen|].
  split; [done|]. split; [|done].
  intros l Hl. specialize (Hfresh l Hl). unfold σ3 in Hfresh.
  rewrite length_app in Hfresh. lia.
Qed.

Lemma Append_args_spec σ c cs :
  valid_slice σ (constructors c) →
  ∃ c' ext, Append_args c cs σ = Some (c', σ ++ ext) ∧
    elems (σ ++ ext) (constructors c') = elems σ (constructors c) ++ cs ∧
    s_len (constructors c') = s_len (constructors c) + length cs ∧
    valid_slice (σ ++ ext) (constructors c') ∧
    fresh_in σ (constructors c') ∧
    finalize c' = Some createRootHandler.
Proof.
  intros Hc. unfold Append_args.
  destruct (variadic_spec cs σ) as (ext1 & Hst & Hel & Hlen & Hval).
  rewrite Hst.
  destruct (Append_spec (σ ++ ext1) c (fst (variadic cs σ)))
    as (c' & ext2 & HA & Helems & Hl & Hv & Hfresh & Hfin);
    [by apply valid_slice_app | done |].
  exists c', (ext1 ++ ext2). rewrite app_assoc.
  split; [done|]. rewrite Helems, Hl, Hel, Hlen, (elems_app σ ext1 _ Hc).
  split; [done|]. split; [done|]. split; [done|]. split; [|done].
  intros l Hptr. specialize (Hfresh l Hptr). rewrite length_app in Hfresh. lia.
Qed.

Lemma New_args_spec cs σ :
  ∃ ext, snd (New_args cs σ) = σ ++ ext ∧
    elems (σ ++ ext) (constructors (fst (New_args cs σ))) = cs ∧
    s_len (constructors (fst (New_args cs σ))) = length cs ∧
    valid_slice (σ ++ ext) (constructors (fst (New_args cs σ))) ∧
    fresh_in σ (constructors (fst (New_args cs σ))) ∧
    finalize (fst (New_args cs σ)) = Some createRootHandler.
Proof.
  unfold New_args.
  destruct (variadic_spec cs σ) as (ext1 & Hst & Hel & Hlen & Hval).
  rewrite Hst.
  destruct (New_spec (σ ++ ext1) (fst (variadic cs σ)) Hval)
    as (ext2 & Hst2 & Hel2 & Hlen2 & Hval2 & Hfresh & Hfin).
  exists (ext1 ++ ext2). rewrite app_assoc.
  split; [done|]. split; [by rewrite Hel2|]. split; [by rewrite Hlen2|].
  split; [done|]. split; [|done].
  intros l Hptr. specialize (Hfresh l Hptr). rewrite length_app in Hfresh. lia.
Qed.

(** [Append] returns whatever the slices are: the bound of [newCons[k:]]
    is the length of the receiver's sequence, within the length made. *)
Lemma Append_returns c xs σ :
  ∃ c' σ', Append c xs σ = Some (c', σ') ∧ finalize c' = Some createRootHandler.
Proof.
  unfold Append, slice_from. simpl.
  rewrite decide_True by lia. simpl. eauto.
Qed.

(** An index assignment is seen through the slice it is made through. *)
Lemma store_at_elems σ s i v σ' :
  valid_slice σ s → store_at σ s i v = Some σ' →
  elems σ' s = <[i := v]> (elems σ s).
Proof.
  intros (Hlen & Hcap & Hptr). unfold store_at.
  case_decide as Hi; [|done].
  destruct (s_ptr s) as [l|] eqn:Hl; [|done]. intros [= <-].
  unfold elems, backing. rewrite Hl, list_lookup_alter_eq.
  destruct (σ !! l) as [arr|] eqn:Harr; simpl.
  - rewrite drop_insert_ge by lia. rewrite take_insert_lt by lia.
    do 2 f_equal. lia.
  - by rewrite drop_nil, take_nil.
Qed.

(** ** The loop of [Then] *)

Lemma compose_snoc cs c h w :
  compose (cs ++ [c]) h w = (x ← call_constructor c h; compose cs x) w.
Proof.
  revert w. induction cs as [|c0 cs IH]; intros w; simpl.
  - unfold mbind, M_bind, mret, M_ret.
    destruct (call_constructor c h w); reflexivity.
  - rewrite (bind_ext_l _ _ _ w (IH w)). apply bind_assoc.
Qed.

Lemma Then_loop_compose σ s n final w :
  n ≤ length (elems σ s) →
  Then_loop σ s n final w = compose (take n (elems σ s)) final w.
Proof.
  revert final w. induction n as [|n IH]; intros final w Hn; simpl.
  - done.
  - rewrite index_elems.
    destruct (lookup_lt_is_Some_2 (elems σ s) n) as [c Hc]; [lia|].
    rewrite Hc, (take_S_r _ _ _ Hc), compose_snoc.
    apply bind_ext_r. intros a w'. apply IH. lia.
Qed.

(** The loop sees the store through the sequence of the slice only. *)
Lemma Then_loop_ext σ1 s1 σ2 s2 n final w :
  elems σ1 s1 = elems σ2 s2 →
  Then_loop σ1 s1 n final w = Then_loop σ2 s2 n final w.
Proof.
  intros Hel. revert final w. induction n as [|n IH]; intros final w; simpl.
  - done.
  - rewrite !index_elems, Hel.
    destruct (elems σ2 s2 !! n); [|done].
    apply bind_ext_r. intros a w'. apply IH.
Qed.

Lemma Then_ext σ1 c1 σ2 c2 h w :
  elems σ1 (constructors c1) = elems σ2 (constructors c2) →
  s_len (constructors c1) = s_len (constructors c2) →
  finalize c1 = finalize c2 →
  Then c1 h σ1 w = Then c2 h σ2 w.
Proof.
  intros Hel Hlen Hfin. unfold Then. rewrite Hlen, Hfin.
  apply bind_ext_l. by apply Then_loop_ext.
Qed.

Lemma Then_compose σ c h w :
  valid_slice σ (constructors c) →
  Then c h σ w =
  (final ← compose (elems σ (constructors c))
             (match h with Some _ => h | None => adaptFinal DefaultServeMux end);
   call_finalize (finalize c) final) w.
Proof.
  intros Hc. unfold Then. apply bind_ext_l.
  rewrite Then_loop_compose by (by rewrite length_elems).
  rewrite take_ge; [done|]. by rewrite length_elems.
Qed.

(** ** The root boundary *)

Lemma new_cell_fresh w : cancel_cells w !! new_cell w = None.
Proof. apply not_elem_of_dom. unfold new_cell. apply is_fresh. Qed.

Lemma rootServe_unfold h rw r w :
  rootServe h rw r w =
  with_defer (cancel (new_cell w))
    (Handler_ServeHTTP h (cancelCtx Background (new_cell w)) rw r) (alloc_cell w).
Proof. reflexivity. Qed.

Lemma Err_after_cancel cell w : Err (cancel cell w) (cancelCtx Background cell) = true.
Proof. simpl. by rewrite lookup_insert_eq. Qed.

Lemma Err_new_context w :
  Err (alloc_cell w) (cancelCtx Background (new_cell w)) = false.
Proof. simpl. by rewrite lookup_insert_eq. Qed.

Lemma Then_New_args cs h σ w :
  Then (fst (New_args cs σ)) h (snd (New_args cs σ)) w =
  (final ← compose cs (match h with Some _ => h | None => adaptFinal DefaultServeMux end);
   createRootHandler final) w.
Proof.
  destruct (New_args_spec cs σ) as (ext & Hst & Hel & _ & Hval & _ & Hfin).
  rewrite Hst, Then_compose by done. by rewrite Hel, Hfin.
Qed.

(** ** Composition *)

(** C1: for every constructor sequence and every non-nil terminal handler,
    [New(c1, ..., cn).Then(h)] is [c1(c2(...cn(h)))] handed to the root
    boundary; the first constructor is called last, on what the others
    built, and the last constructor is called first, on the terminal
    handler itself. *)
Theorem Then_composes_outermost_first cs (h : ServeFn) σ w :
  Then (fst (New_args cs σ)) (Some h) (snd (New_args cs σ)) w
  = (final ← compose cs (Some h); createRootHandler final) w
  ∧ (∀ c1,
      Then (fst (New_args (c1 :: cs) σ)) (Some h) (snd (New_args (c1 :: cs) σ)) w
      = (inner ← compose cs (Some h);
         outer ← call_constructor c1 inner;
         createRootHandler outer) w)
  ∧ (∀ cn,
      Then (fst (New_args (cs ++ [cn]) σ)) (Some h) (snd (New_args (cs ++ [cn]) σ)) w
      = (innermost ← call_constructor cn (Some h);
         final ← compose cs innermost;
         createRootHandler final) w).
Proof.
  split; [apply Then_New_args|]. split.
  - intros c1. rewrite Then_New_args. simpl. apply bind_assoc.
  - intros cn. rewrite Then_New_args.
    rewrite (bind_ext_l _ _ _ w (compose_snoc cs cn (Some h) w)).
    apply bind_assoc.
Qed.

(** C3: [c.Then(nil)] is [c.Then(adaptFinal(http.DefaultServeMux))], for
    every chain, and the adapter serves every request as the multiplexer
    does, whatever context it is given. *)
Theorem Then_nil_is_DefaultServeMux c σ w :
  Then c None σ w = Then c (adaptFinal DefaultServeMux) σ w
  ∧ (∀ ctx rw r w',
       Handler_ServeHTTP (adaptFinal DefaultServeMux) ctx rw r w'
       = http_ServeHTTP DefaultServeMux rw r w')
  ∧ (∀ ctx1 ctx2 rw r w',
       Handler_ServeHTTP (adaptFinal DefaultServeMux) ctx1 rw r w'
       = Handler_ServeHTTP (adaptFinal DefaultServeMux) ctx2 rw r w').
Proof. split; [reflexivity|]. split; reflexivity. Qed.

(** C8: [c.ThenFunc(fn)] is [c.Then(HandlerFunc(fn))] for a function [fn],
    whose [ServeHTTP] is [fn] itself, and [c.ThenFunc(nil)] is
    [c.Then(nil)]. *)
Theorem ThenFunc_is_Then c (fn : ServeFn) σ w :
  ThenFunc c (Some fn) σ w = Then c (HandlerFunc_as_Handler (Some fn)) σ w
  ∧ (∀ ctx rw r w',
       Handler_ServeHTTP (HandlerFunc_as_Handler (Some fn)) ctx rw r w' = fn ctx rw r w')
  ∧ ThenFunc c None σ w = Then c None σ w.
Proof. split; [reflexivity|]. split; reflexivity. Qed.

(** ** The root boundary *)

(** C2: the handler the root boundary produces serves a request by creating
    a cancellable child of the background context on a cell no context
    used before, calling the wrapped handler with that context, the
    response sink and the request, and cancelling the context when the
    wrapped handler returns and when it panics; either way the context is
    cancelled in the world the request leaves behind. *)
Theorem root_boundary_cancels h rw r w :
  let ctx := cancelCtx Background (new_cell w) in
  createRootHandler h w = Returned (Some (rootServe h)) w
  ∧ cancel_cells w !! new_cell w = None
  ∧ Err (alloc_cell w) ctx = false
  ∧ match Handler_ServeHTTP h ctx rw r (alloc_cell w) with
    | Returned _ w' => rootServe h rw r w = Returned tt (cancel (new_cell w) w')
    | Panicked v w' => rootServe h rw r w = Panicked v (cancel (new_cell w) w')
    end
  ∧ Err (world_of (rootServe h rw r w)) ctx = true.
Proof.
  intros ctx. split; [reflexivity|]. split; [apply new_cell_fresh|].
  split; [apply Err_new_context|].
  rewrite rootServe_unfold. unfold with_defer. fold ctx.
  destruct (Handler_ServeHTTP h ctx rw r (alloc_cell w)) as [[] w'|v w'];
    (split; [reflexivity | apply Err_after_cancel]).
Qed.

(** C9: when [Then] or [ThenFunc] of a chain returns a handler, every
    request it serves reaches the outermost wrapped handler with a context
    that is a child of the background context on a cell no earlier context
    used, is not cancelled at that moment and carries no value under any
    key. *)
Theorem request_context_is_fresh c σ w0 hh w1 :
  package_chain c →
  ((∃ h, Then c h σ w0 = Returned hh w1) ∨
   (∃ fn, ThenFunc c fn σ w0 = Returned hh w1)) →
  ∃ outermost, hh = Some (rootServe outermost) ∧
    ∀ rw r w,
      let ctx := cancelCtx Background (new_cell w) in
      http_ServeHTTP hh rw r w
      = with_defer (cancel (new_cell w)) (Handler_ServeHTTP outermost ctx rw r)
          (alloc_cell w)
      ∧ cancel_cells w !! new_cell w = None
      ∧ Err (alloc_cell w) ctx = false
      ∧ ∀ key, Value ctx key = None.
Proof.
  intros Hpkg Hthen.
  assert (∃ h, Then c h σ w0 = Returned hh w1) as [h Hh].
  { destruct Hthen as [?|[fn Hfn]]; [done|].
    destruct fn; unfold ThenFunc in Hfn; eauto. }
  unfold Then in Hh. unfold mbind, M_bind in Hh.
  destruct (Then_loop σ (constructors c) (s_len (constructors c)) _ w0)
    as [outermost w'|v w']; [|done].
  destruct Hpkg as [Hfin|Hfin]; rewrite Hfin in Hh; [done|].
  simpl in Hh. unfold createRootHandler, mret, M_ret in Hh.
  injection Hh as <- <-. exists outermost. split; [reflexivity|].
  intros rw r w ctx. split; [reflexivity|].
  split; [apply new_cell_fresh|]. split; [apply Err_new_context|]. done.
Qed.

(** ** Storage *)

(** C4: [c.Append(xs...)] returns a chain whose sequence is the receiver's
    followed by [xs], in an array that did not exist before the call;
    whatever is then done to that array, and an index assignment through
    the new chain in particular, the receiver keeps its sequence. *)
Theorem Append_concatenates_in_fresh_storage σ c xs :
  valid_slice σ (constructors c) → valid_slice σ xs →
  ∃ c' σ', Append c xs σ = Some (c', σ') ∧
    elems σ' (constructors c') = elems σ (constructors c) ++ elems σ xs ∧
    s_len (constructors c') = s_len (constructors c) + s_len xs ∧
    valid_slice σ' (constructors c') ∧
    fresh_in σ (constructors c') ∧
    (0 < s_len (constructors c') →
       ∃ l, s_ptr (constructors c') = Some l ∧ length σ ≤ l < length σ') ∧
    (∀ σ'', same_except (constructors c') σ'' σ' →
       elems σ'' (constructors c) = elems σ (constructors c)) ∧
    (∀ i v σ'', store_at σ' (constructors c') i v = Some σ'' →
       elems σ'' (constructors c') = <[i := v]> (elems σ' (constructors c')) ∧
       elems σ'' (constructors c) = elems σ (constructors c)).
Proof.
  intros Hc Hxs.
  destruct (Append_spec σ c xs Hc Hxs) as (c' & ext & HA & Hel & Hlen & Hval & Hfresh & _).
  exists c', (σ ++ ext).
  split; [done|]. split; [done|]. split; [done|]. split; [done|]. split; [done|].
  split; [|split].
  - intros Hpos. destruct (valid_nonempty_has_array _ _ Hval Hpos) as (l & Hl & Hlt).
    exists l. split; [done|]. specialize (Hfresh l Hl). lia.
  - intros σ'' Hsame. by eapply elems_frame.
  - intros i v σ'' Hst. split; [by apply store_at_elems|].
    eapply elems_frame; [done | done | by eapply store_at_same_except].
Qed.

(** C5: [c.Append(x)] leaves the receiver's sequence as it was, [k] long,
    and returns a chain of [k + 1] constructors; an index assignment
    through either chain is not seen through the other, and after a later
    [c.Append(y)] and a later [Append(z)] on the returned chain all four
    chains hold what they were built with. *)
Theorem Append_leaves_receiver_alone σ c x :
  valid_slice σ (constructors c) →
  ∃ c' σ', Append_args c [x] σ = Some (c', σ') ∧
    elems σ' (constructors c) = elems σ (constructors c) ∧
    length (elems σ' (constructors c)) = s_len (constructors c) ∧
    elems σ' (constructors c') = elems σ (constructors c) ++ [x] ∧
    s_len (constructors c') = S (s_len (constructors c)) ∧
    fresh_in σ (constructors c') ∧
    (∀ i v σ'', store_at σ' (constructors c') i v = Some σ'' →
       elems σ'' (constructors c) = elems σ (constructors c)) ∧
    (∀ i v σ'', store_at σ' (constructors c) i v = Some σ'' →
       elems σ'' (constructors c') = elems σ' (constructors c')) ∧
    (∀ y z, ∃ c2 σ2 c3 σ3,
       Append_args c [y] σ' = Some (c2, σ2) ∧
       Append_args c' [z] σ2 = Some (c3, σ3) ∧
       elems σ3 (constructors c) = elems σ (constructors c) ∧
       elems σ3 (constructors c') = elems σ (constructors c) ++ [x] ∧
       elems σ3 (constructors c2) = elems σ (constructors c) ++ [y] ∧
       elems σ3 (constructors c3) = elems σ (constructors c) ++ [x; z]).
Proof.
  intros Hc.
  destruct (Append_args_spec σ c [x] Hc) as (c' & ext & HA & Hel & Hlen & Hval & Hfresh & _).
  pose proof (valid_slice_app σ ext _ Hc) as Hc'.
  pose proof (elems_app σ ext _ Hc) as Hkeep.
  exists c', (σ ++ ext).
  split; [done|]. split; [done|].
  split; [by rewrite length_elems|]. split; [done|].
  split; [simpl in Hlen; lia|]. split; [done|].
  split; [|split].
  - intros i v σ'' Hst.
    eapply elems_frame; [done | done | by eapply store_at_same_except].
  - intros i v σ'' Hst. apply elems_same_backing. intros l Hl.
    eapply store_at_same_except; [done|]. intros Hl'.
    destruct Hc as (_ & _ & Hptr). specialize (Hptr l Hl').
    specialize (Hfresh l Hl). lia.
  - intros y z.
    destruct (Append_args_spec (σ ++ ext) c [y] Hc')
      as (c2 & ext2 & HA2 & Hel2 & _ & Hval2 & _ & _).
    destruct (Append_args_spec ((σ ++ ext) ++ ext2) c' [z])
      as (c3 & ext3 & HA3 & Hel3 & _ & _ & _ & _); [by apply valid_slice_app|].
    exists c2, ((σ ++ ext) ++ ext2), c3, (((σ ++ ext) ++ ext2) ++ ext3).
    split; [done|]. split; [done|].
    rewrite Hel3, (elems_app _ ext3 _ Hval2), Hel2.
    split; [|split; [|split]].
    + rewrite <- !app_assoc. by apply elems_app.
    + rewrite <- (app_assoc (σ ++ ext)). by rewrite (elems_app _ _ _ Hval).
    + by rewrite Hkeep.
    + by rewrite (elems_app _ _ _ Hval), Hel, <- app_assoc.
Qed.

(** C6, as the code has it: [New] returns a chain whose sequence is that of
    the slice it was given, in an array that did not exist before; whatever
    is then done to the caller's array, and an index assignment through the
    caller's slice in particular, the chain keeps its sequence; and for the
    chain of [New()], [Then(h)] is the finalizer applied to [h] when [h] is
    not nil, and to the adapter of [http.DefaultServeMux] when it is. *)
Theorem New_copies_its_input σ s :
  valid_slice σ s →
  elems (snd (New s σ)) (constructors (fst (New s σ))) = elems σ s
  ∧ fresh_in σ (constructors (fst (New s σ)))
  ∧ (∀ σ'', same_except s σ'' (snd (New s σ)) →
       elems σ'' (constructors (fst (New s σ))) = elems σ s)
  ∧ (∀ i v σ'', store_at (snd (New s σ)) s i v = Some σ'' →
       elems σ'' s = <[i := v]> (elems σ s) ∧
       elems σ'' (constructors (fst (New s σ))) = elems σ s)
  ∧ (∀ (h : ServeFn) σ0 w,
       Then (fst (New_args [] σ0)) (Some h) (snd (New_args [] σ0)) w
       = createRootHandler (Some h) w)
  ∧ (∀ σ0 w,
       Then (fst (New_args [] σ0)) None (snd (New_args [] σ0)) w
       = createRootHandler (adaptFinal DefaultServeMux) w).
Proof.
  intros Hs.
  destruct (New_spec σ s Hs) as (ext & Hst & Hel & _ & Hval & Hfresh & _).
  rewrite Hst.
  assert (∀ σ'', same_except s σ'' (σ ++ ext) →
            elems σ'' (constructors (fst (New s σ))) = elems σ s) as Hframe.
  { intros σ'' Hsame. rewrite <- Hel. apply elems_same_backing.
    intros l Hl. apply Hsame. intros Hl'.
    destruct Hs as (_ & _ & Hptr). specialize (Hptr l Hl').
    specialize (Hfresh l Hl). lia. }
  split; [done|]. split; [done|]. split; [done|]. split; [|split].
  - intros i v σ'' Hstore. split.
    + rewrite (store_at_elems _ _ _ _ _ (valid_slice_app σ ext s Hs) Hstore).
      by rewrite elems_app.
    + apply Hframe. by eapply store_at_same_except.
  - intros h σ0 w. by rewrite Then_New_args.
  - intros σ0 w. by rewrite Then_New_args.
Qed.

(** C7, as the code has it: the chain [Append] returns has the finalizer
    [New] fixes, the root boundary, whatever the finalizer of the receiver
    is; it is the finalizer of every chain [New] returns, and a further
    [Append] keeps it. *)
Theorem Append_fixes_the_finalizer c xs σ :
  ∃ c' σ', Append c xs σ = Some (c', σ') ∧
    finalize c' = Some createRootHandler ∧
    finalize c' = finalize (fst (New xs σ)) ∧
    (∀ ys σ2, ∃ c'' σ'', Append c' ys σ2 = Some (c'', σ'') ∧
       finalize c'' = finalize c').
Proof.
  destruct (Append_returns c xs σ) as (c' & σ' & HA & Hfin).
  exists c', σ'. split; [done|]. split; [done|]. split; [done|].
  intros ys σ2. destruct (Append_returns c' ys σ2) as (c'' & σ'' & HA' & Hfin').
  exists c'', σ''. split; [done|]. congruence.
Qed.

(** C10, as the code has it: for a chain whose finalizer is the root
    boundary, [c.Append()] returns a chain with the same sequence, as long
    and in the same order, in an array that did not exist before, and its
    [Then] on any terminal handler, nil or not, is that of [c]. *)
Theorem Append_nothing_is_identity σ c :
  valid_slice σ (constructors c) →
  finalize c = Some createRootHandler →
  ∃ c' σ', Append_args c [] σ = Some (c', σ') ∧
    s_len (constructors c') = s_len (constructors c) ∧
    length (elems σ' (constructors c')) = length (elems σ (constructors c)) ∧
    elems σ' (constructors c') = elems σ (constructors c) ∧
    fresh_in σ (constructors c') ∧
    ∀ h w, Then c' h σ' w = Then c h σ' w ∧ Then c h σ' w = Then c h σ w.
Proof.
  intros Hc Hfin.
  destruct (Append_args_spec σ c [] Hc) as (c' & ext & HA & Hel & Hlen & Hval & Hfresh & Hfin').
  rewrite app_nil_r in Hel. simpl in Hlen. rewrite Nat.add_0_r in Hlen.
  exists c', (σ ++ ext).
  split; [done|]. split; [done|]. split; [by rewrite Hel|].
  split; [done|]. split; [done|].
  intros h w. split.
  - apply Then_ext; [|done|congruence]. by rewrite Hel, elems_app.
  - apply Then_ext; [|done|done]. by apply elems_app.
Qed.

(** ** How chains compose *)

Lemma compose_app cs1 cs2 h w :
  compose (cs1 ++ cs2) h w = (x ← compose cs2 h; compose cs1 x) w.
Proof.
  revert w. induction cs1 as [|c cs1 IH]; intros w; simpl.
  - symmetry. apply bind_ret_r.
  - rewrite (bind_ext_l _ _ _ w (IH w)). apply bind_assoc.
Qed.

Lemma Then_resolve σ c h w :
  valid_slice σ (constructors c) →
  Then c h σ w =
  (final ← compose (elems σ (constructors c)) (resolve DefaultServeMux h);
   call_finalize (finalize c) final) w.
Proof. apply Then_compose. Qed.

Lemma Then_New_args_resolve cs h σ w :
  Then (fst (New_args cs σ)) h (snd (New_args cs σ)) w =
  (final ← compose cs (resolve DefaultServeMux h); createRootHandler final) w.
Proof. apply Then_New_args. Qed.

(** X3: [New(a...).Append(b...)] holds the sequence [a] followed by [b], and
    its [Then] is that of [New] of the two lists joined, on every terminal
    handler and in every world. *)
Theorem New_then_Append_is_New_of_both a b σ :
  ∃ c' σ', Append_args (fst (New_args a σ)) b (snd (New_args a σ)) = Some (c', σ') ∧
    elems σ' (constructors c') = a ++ b ∧
    ∀ h w, Then c' h σ' w
           = Then (fst (New_args (a ++ b) σ)) h (snd (New_args (a ++ b) σ)) w.
Proof.
  destruct (New_args_spec a σ) as (ext & Hst & Hel & Hlen & Hval & _ & _).
  rewrite Hst.
  destruct (Append_args_spec (σ ++ ext) (fst (New_args a σ)) b Hval)
    as (c' & ext' & HA & Hel' & Hlen' & _ & _ & Hfin').
  destruct (New_args_spec (a ++ b) σ) as (ext2 & Hst2 & Hel2 & Hlen2 & _ & _ & Hfin2).
  exists c', ((σ ++ ext) ++ ext'). split; [done|].
  rewrite Hel in Hel'. split; [done|].
  intros h w. rewrite Hst2. apply Then_ext.
  - by rewrite Hel', Hel2.
  - rewrite Hlen', Hlen, Hlen2, length_app. done.
  - congruence.
Qed.

(** X4: appending [xs] and then [ys] gives the sequence, and the [Then], of
    appending the two lists joined. *)
Theorem Append_twice_is_Append_of_both σ c xs ys :
  valid_slice σ (constructors c) →
  ∃ c1 σ1 c2 σ2 c3 σ3,
    Append_args c xs σ = Some (c1, σ1) ∧
    Append_args c1 ys σ1 = Some (c2, σ2) ∧
    Append_args c (xs ++ ys) σ = Some (c3, σ3) ∧
    elems σ2 (constructors c2) = elems σ (constructors c) ++ xs ++ ys ∧
    elems σ3 (constructors c3) = elems σ (constructors c) ++ xs ++ ys ∧
    ∀ h w, Then c2 h σ2 w = Then c3 h σ3 w.
Proof.
  intros Hc.
  destruct (Append_args_spec σ c xs Hc)
    as (c1 & ext1 & HA1 & Hel1 & Hlen1 & Hval1 & _ & _).
  destruct (Append_args_spec (σ ++ ext1) c1 ys Hval1)
    as (c2 & ext2 & HA2 & Hel2 & Hlen2 & _ & _ & Hfin2).
  destruct (Append_args_spec σ c (xs ++ ys) Hc)
    as (c3 & ext3 & HA3 & Hel3 & Hlen3 & _ & _ & Hfin3).
  exists c1, (σ ++ ext1), c2, ((σ ++ ext1) ++ ext2), c3, (σ ++ ext3).
  split; [done|]. split; [done|]. split; [done|].
  rewrite Hel1 in Hel2.
  rewrite <- (app_assoc (elems σ (constructors c)) xs ys) in Hel2.
  split; [done|]. split; [done|].
  intros h w. apply Then_ext.
  - by rewrite Hel2, Hel3.
  - rewrite Hlen2, Hlen1, Hlen3, length_app. lia.
  - congruence.
Qed.

(** X5: [Then] of the zero [Chain] panics on its nil finalizer, whatever the
    terminal handler; [Append] on the zero [Chain] returns a chain whose
    [Then] is that of [New] of the appended constructors. *)
Theorem Append_on_zero_Chain_is_New cs σ :
  (∀ h w, Then zeroChain h σ w = Panicked NilDereference w) ∧
  ∃ c' σ', Append_args zeroChain cs σ = Some (c', σ') ∧
    elems σ' (constructors c') = cs ∧
    ∀ h w, Then c' h σ' w = Then (fst (New_args cs σ)) h (snd (New_args cs σ)) w.
Proof.
  split; [reflexivity|].
  destruct (Append_args_spec σ zeroChain cs (valid_nilSlice σ))
    as (c' & ext & HA & Hel & Hlen & _ & _ & Hfin).
  destruct (New_args_spec cs σ) as (ext2 & Hst2 & Hel2 & Hlen2 & _ & _ & Hfin2).
  exists c', (σ ++ ext). split; [done|]. split; [done|].
  intros h w. rewrite Hst2. apply Then_ext.
  - by rewrite Hel, Hel2.
  - by rewrite Hlen, Hlen2.
  - congruence.
Qed.

(** X6: with a nil constructor in the chain, [Then] calls the constructors
    after it, last to first, and then panics on the nil call: the
    constructors before it are not called and no handler is returned. *)
Theorem Then_panics_at_a_nil_constructor outer inner h σ w :
  Then (fst (New_args (outer ++ None :: inner) σ)) h
       (snd (New_args (outer ++ None :: inner) σ)) w
  = (x ← compose inner (resolve DefaultServeMux h);
     mpanic (A := HttpHandler) NilDereference) w
  ∧ ∀ hh w', Then (fst (New_args (outer ++ None :: inner) σ)) h
                  (snd (New_args (outer ++ None :: inner) σ)) w
             ≠ Returned hh w'.
Proof.
  assert (Then (fst (New_args (outer ++ None :: inner) σ)) h
               (snd (New_args (outer ++ None :: inner) σ)) w
          = (x ← compose inner (resolve DefaultServeMux h);
             mpanic (A := HttpHandler) NilDereference) w) as Heq.
  { rewrite Then_New_args_resolve.
    rewrite (bind_ext_l _ _ _ w (compose_app outer (None :: inner) _ w)).
    simpl. unfold mbind, M_bind.
    destruct (compose inner (resolve DefaultServeMux h) w); reflexivity. }
  split; [done|]. intros hh w'. rewrite Heq. unfold mbind, M_bind.
  destruct (compose inner (resolve DefaultServeMux h) w); discriminate.
Qed.

(** X7: a constructor that makes its handler without looking at the one it is
    given cuts off what is inside it: when the constructors inside return
    in the same world for two terminal handlers, [Then] returns the same
    for both, so neither terminal handler takes part in serving. *)
Theorem ignoring_constructor_cuts_off_the_inside
    outer (m : M Handler) inner (h1 h2 : Handler) σ w x1 x2 w' :
  compose inner (resolve DefaultServeMux h1) w = Returned x1 w' →
  compose inner (resolve DefaultServeMux h2) w = Returned x2 w' →
  Then (fst (New_args (outer ++ Some (fun _ => m) :: inner) σ)) h1
       (snd (New_args (outer ++ Some (fun _ => m) :: inner) σ)) w
  = Then (fst (New_args (outer ++ Some (fun _ => m) :: inner) σ)) h2
         (snd (New_args (outer ++ Some (fun _ => m) :: inner) σ)) w
  ∧ Then (fst (New_args (outer ++ Some (fun _ => m) :: inner) σ)) h1
         (snd (New_args (outer ++ Some (fun _ => m) :: inner) σ)) w
    = (y ← m; final ← compose outer y; createRootHandler final) w'.
Proof.
  intros H1 H2.
  assert (∀ h x, compose inner (resolve DefaultServeMux h) w = Returned x w' →
    Then (fst (New_args (outer ++ Some (fun _ => m) :: inner) σ)) h
         (snd (New_args (outer ++ Some (fun _ => m) :: inner) σ)) w
    = (y ← m; final ← compose outer y; createRootHandler final) w') as Hcut.
  { intros h x Hx. rewrite Then_New_args_resolve.
    rewrite (bind_ext_l _ _ _ w (compose_app outer (Some (fun _ => m) :: inner) _ w)).
    simpl. unfold mbind, M_bind. rewrite Hx. simpl.
    destruct (m w'); reflexivity. }
  split; [|by eapply Hcut].
  rewrite (Hcut h1 x1 H1), (Hcut h2 x2 H2). done.
Qed.

(** X8: [c.Append(x).Then(h)] is [c.Then(x(h))] when [x] returns a handler
    that is not nil, for a chain whose finalizer is the root boundary. *)
Theorem Append_then_Then_is_Then_of_wrapped σ c x h w (s : ServeFn) w1 :
  valid_slice σ (constructors c) →
  finalize c = Some createRootHandler →
  call_constructor x (resolve DefaultServeMux h) w = Returned (Some s) w1 →
  ∃ c' σ', Append_args c [x] σ = Some (c', σ') ∧
    Then c' h σ' w = Then c (Some s) σ w1.
Proof.
  intros Hc Hfin Hx.
  destruct (Append_args_spec σ c [x] Hc)
    as (c' & ext & HA & Hel & _ & Hval & _ & Hfin').
  exists c', (σ ++ ext). split; [done|].
  rewrite (Then_resolve _ c' h w Hval), (Then_resolve _ c (Some s) w1 Hc).
  rewrite Hel, Hfin, Hfin'.
  rewrite (bind_ext_l _ _ _ w (compose_snoc _ x _ w)).
  simpl. unfold mbind at 1 2, M_bind at 1 2. rewrite Hx. reflexivity.
Qed.

(** X9: [Then] over constructors that leave the world alone returns the
    root handler of what they built, the handler [c1(c2(...cn(h)))] returns
    for the terminal step, and leaves the world alone: no context is
    created and nothing is written before a request is served. *)
Theorem Then_of_pure_constructors_is_pure cs h σ w :
  Forall pure_constructor cs →
  ∃ outermost,
    compose cs (resolve DefaultServeMux h) w = Returned outermost w
    ∧ Then (fst (New_args cs σ)) h (snd (New_args cs σ)) w
      = Returned (Some (rootServe outermost)) w
    ∧ ∀ rw r w',
        serve_with (Then (fst (New_args cs σ)) h (snd (New_args cs σ))) rw r w
        = rootServe outermost rw r w
        ∧ http_ServeHTTP (Some (rootServe outermost)) rw r w'
          = with_defer (cancel (new_cell w'))
              (Handler_ServeHTTP outermost (cancelCtx Background (new_cell w')) rw r)
              (alloc_cell w').
Proof.
  intros Hpure.
  assert (∃ x, compose cs (resolve DefaultServeMux h) w = Returned x w) as [x Hx].
  { induction Hpure as [|c cs Hc _ IH]; simpl.
    - by eexists.
    - destruct IH as [x Hx]. destruct (Hc x w) as [x' Hx'].
      exists x'. unfold mbind, M_bind. by rewrite Hx. }
  assert (Then (fst (New_args cs σ)) h (snd (New_args cs σ)) w
          = Returned (Some (rootServe x)) w) as Hthen.
  { rewrite Then_New_args_resolve. unfold mbind, M_bind. by rewrite Hx. }
  exists x. split; [done|]. split; [done|].
  intros rw r w'. split; [|reflexivity].
  unfold serve_with, mbind, M_bind. by rewrite Hthen.
Qed.

(** ** What requests see *)

Lemma string_append_assoc (a b c : string) :
  String.append (String.append a b) c = String.append a (String.append b c).
Proof.
  induction a as [|ch a IH]; [reflexivity|].
  change (String ch (String.append (String.append a b) c)
          = String ch (String.append a (String.append b c))).
  by rewrite IH.
Qed.

Lemma string_append_nil_r (a : string) : String.append a ""%string = a.
Proof.
  induction a as [|ch a IH]; [reflexivity|].
  change (String ch (String.append a ""%string) = String ch a).
  by rewrite IH.
Qed.

Lemma tag_ctx_value ctx tags :
  default ""%string (Value (tag_ctx ctx tags) "tag")
  = String.append (default ""%string (Value ctx "tag")) (join tags).
Proof.
  revert ctx. induction tags as [|tag rest IH]; intros ctx; simpl.
  - by rewrite string_append_nil_r.
  - rewrite IH. simpl. apply string_append_assoc.
Qed.

Lemma compose_tagMiddleware tags h w :
  ∃ hd, compose (map tagMiddleware tags) h w = Returned hd w ∧
    ∀ ctx rw r w',
      Handler_ServeHTTP hd ctx rw r w' = Handler_ServeHTTP h (tag_ctx ctx tags) rw r w'.
Proof.
  induction tags as [|tag rest IH]; simpl.
  - by exists h.
  - destruct IH as (hd & Hhd & Hserve).
    eexists. unfold mbind, M_bind. rewrite Hhd. simpl.
    split; [reflexivity|]. intros ctx rw r w'. simpl. apply Hserve.
Qed.

(** X1: a chain of [tagMiddleware]s over [testApp], whatever the tags and
    however many, serves a request by writing the tags joined in chain
    order and then ["app\n"], once, to the sink of the request, and leaves
    the context of the request cancelled. *)
Theorem tags_reach_the_app_in_chain_order tags σ rw r w :
  serve_with (Then (fst (New_args (map tagMiddleware tags) σ))
                (HandlerFunc_as_Handler testApp)
                (snd (New_args (map tagMiddleware tags) σ))) rw r w
  = Returned tt
      (cancel (new_cell w)
         (mkWorld (cancel_cells (alloc_cell w))
            (written w ++ [(rw, String.append (join tags) (String.append "app" nl))]))).
Proof.
  unfold serve_with.
  rewrite (bind_ext_l _ _ _ w (Then_New_args_resolve _ _ σ w)).
  destruct (compose_tagMiddleware tags (HandlerFunc_as_Handler testApp) w)
    as (hd & Hhd & Hserve).
  unfold mbind at 1 2, M_bind at 1 2. simpl resolve. rewrite Hhd. simpl.
  rewrite rootServe_unfold. unfold with_defer. rewrite Hserve. simpl.
  unfold Write. simpl.
  pose proof (tag_ctx_value (cancelCtx Background (new_cell w)) tags) as Hval.
  simpl in Hval. rewrite Hval. reflexivity.
Qed.

(** X2: every call of [Then] calls every constructor of the chain once, the
    last one first: constructors that report when they are called report
    in reverse chain order, and again in that order on a second [Then]
    of the same chain. *)
Theorem Then_calls_constructors_last_to_first rw tags (h : ServeFn) σ w :
  Then (fst (New_args (map (announcing rw) tags) σ)) (Some h)
       (snd (New_args (map (announcing rw) tags) σ)) w
  = Returned (Some (rootServe (Some h))) (log_to rw (rev tags) w)
  ∧ (_ ← Then (fst (New_args (map (announcing rw) tags) σ)) (Some h)
            (snd (New_args (map (announcing rw) tags) σ));
     Then (fst (New_args (map (announcing rw) tags) σ)) (Some h)
          (snd (New_args (map (announcing rw) tags) σ))) w
    = Returned (Some (rootServe (Some h))) (log_to rw (rev tags ++ rev tags) w).
Proof.
  assert (∀ w0, compose (map (announcing rw) tags) (Some h) w0
                = Returned (Some h) (log_to rw (rev tags) w0)) as Hcomp.
  { induction tags as [|tag rest IH]; intros w0; simpl.
    - unfold log_to. simpl. rewrite app_nil_r. by destruct w0.
    - unfold mbind, M_bind. rewrite IH. simpl.
      unfold log_to. simpl. by rewrite map_app, app_assoc. }
  assert (∀ w0, Then (fst (New_args (map (announcing rw) tags) σ)) (Some h)
                     (snd (New_args (map (announcing rw) tags) σ)) w0
                = Returned (Some (rootServe (Some h))) (log_to rw (rev tags) w0)) as Hthen.
  { intros w0. rewrite Then_New_args_resolve. simpl.
    unfold mbind, M_bind. by rewrite Hcomp. }
  split; [apply Hthen|].
  unfold mbind, M_bind. rewrite !Hthen.
  unfold log_to. simpl. by rewrite map_app, app_assoc.
Qed.

(** X10: the handlers of one root boundary serve request after request: the
    context of a request that has been served stays cancelled, the next
    request gets a context on another cell, and that context is not
    cancelled when the wrapped handler is called. *)
Theorem next_request_gets_another_context h rw r w :
  let w1 := world_of (rootServe h rw r w) in
  new_cell w1 ≠ new_cell w
  ∧ cancel_cells w1 !! new_cell w = Some true
  ∧ Err (alloc_cell w1) (cancelCtx Background (new_cell w)) = true
  ∧ Err (alloc_cell w1) (cancelCtx Background (new_cell w1)) = false.
Proof.
  intros w1.
  assert (cancel_cells w1 !! new_cell w = Some true) as Hdone.
  { unfold w1. rewrite rootServe_unfold. unfold with_defer.
    destruct (Handler_ServeHTTP h _ rw r (alloc_cell w)); simpl;
      apply lookup_insert_eq. }
  assert (new_cell w1 ≠ new_cell w) as Hne.
  { intros Heq. pose proof (new_cell_fresh w1) as Hfresh.
    rewrite Heq in Hfresh. congruence. }
  split; [done|]. split; [done|]. split; [|apply Err_new_context].
  simpl. rewrite lookup_insert_ne by done. by rewrite Hdone.
Qed.

(** X11: the root boundary keeps to its own context: serving a request writes
    nothing beyond what the wrapped handler writes, and changes the cell
    of no other context than the one it created. *)
Theorem root_boundary_touches_only_its_context h rw r w :
  let inner := Handler_ServeHTTP h (cancelCtx Background (new_cell w)) rw r
                 (alloc_cell w) in
  written (alloc_cell w) = written w
  ∧ written (world_of (rootServe h rw r w)) = written (world_of inner)
  ∧ ∀ cell, cell ≠ new_cell w →
      cancel_cells (alloc_cell w) !! cell = cancel_cells w !! cell
      ∧ cancel_cells (world_of (rootServe h rw r w)) !! cell
        = cancel_cells (world_of inner) !! cell.
Proof.
  intros inner. rewrite rootServe_unfold. unfold with_defer. fold inner.
  split; [reflexivity|]. split.
  - destruct inner; reflexivity.
  - intros cell Hcell. split.
    + simpl. by rewrite lookup_insert_ne.
    + destruct inner; simpl; by rewrite lookup_insert_ne.
Qed.

End Madhatter.

(** ** The test suite, run on the model *)

Example TestThenWorksWithNoMiddleware :
  let c := New_args exactGrowth [] [] in
  recorded 0 (serve_with (Then emptyMux (fst c) (HandlerFunc_as_Handler testApp) (snd c))
                0 None emptyWorld)
  = Some (String.append "app" nl).
Proof. vm_compute. reflexivity. Qed.

Example TestThenTreatsNilAsDefaultServeMux :
  let c := New_args exactGrowth [] [] in
  recorded 0 (serve_with (Then emptyMux (fst c) None (snd c))
                0 (Some (mkRequest "GET" "/")) emptyWorld)
  = Some notFoundBody.
Proof. vm_compute. reflexivity. Qed.

Example TestThenOrdersHandlersRight :
  let c := New_args doublingGrowth
             [tagMiddleware (String.append "t1" nl);
              tagMiddleware (String.append "t2" nl);
              tagMiddleware (String.append "t3" nl)] [] in
  recorded 0 (serve_with (Then emptyMux (fst c) (HandlerFunc_as_Handler testApp) (snd c))
                0 (Some (mkRequest "GET" "/")) emptyWorld)
  = Some (String.append "t1" (String.append nl (String.append "t2" (String.append nl
            (String.append "t3" (String.append nl (String.append "app" nl))))))).
Proof. vm_compute. reflexivity. Qed.

Example TestAppendAddsHandlersCorrectly :
  let c := New_args doublingGrowth [tagMiddleware "t1,"; tagMiddleware "t2,"] [] in
  match Append_args doublingGrowth (fst c) [tagMiddleware "t3,"; tagMiddleware "t4,"] (snd c) with
  | Some (c', σ') =>
      s_len (constructors (fst c)) = 2 ∧ s_len (constructors c') = 4 ∧
      recorded 0 (serve_with (ThenFunc emptyMux c' testApp σ') 0 None emptyWorld)
      = Some (String.append "t1,t2,t3,t4,app" nl)
  | None => False
  end.
Proof. vm_compute. auto. Qed.

Example TestNew :
  elems (snd (New exactGrowth demoSlice demoStore))
    (constructors (fst (New exactGrowth demoSlice demoStore)))
  = [tagMiddleware "t1,"; tagMiddleware "t2,"].
Proof. reflexivity. Qed.

Example TestThenFuncTreatsNilAsDefaultServeMux :
  recorded 0 (serve_with (ThenFunc emptyMux (fst (New_args exactGrowth [] [])) None
                            (snd (New_args exactGrowth [] [])))
                0 (Some (mkRequest "GET" "/")) emptyWorld)
  = Some notFoundBody.
Proof. vm_compute. reflexivity. Qed.

Example TestAppendRespectsImmutability :
  let c := New_args exactGrowth [tagMiddleware ""] [] in
  match Append_args exactGrowth (fst c) [tagMiddleware ""] (snd c) with
  | Some (c', _) => s_ptr (constructors (fst c)) ≠ s_ptr (constructors c')
  | None => False
  end.
Proof. vm_compute. discriminate. Qed.

Example panic_still_cancels :
  let res := serve_with (createRootHandler (HandlerFunc_as_Handler panickingApp))
               0 None emptyWorld in
  res = Panicked (PanicWith "boom")
          (mkWorld (<[0 := true]> (∅ : gmap nat bool)) [(0, "partial"%string)])
  ∧ Err (world_of res) (cancelCtx Background 0) = true.
Proof. vm_compute. split; reflexivity. Qed.

Example short_circuit_hides_the_rest :
  let c := New_args exactGrowth
             [tagMiddleware "t1,"; shortCircuit "stop"; tagMiddleware "t3,"] [] in
  recorded 0 (serve_with (Then emptyMux (fst c) (HandlerFunc_as_Handler testApp) (snd c))
                0 None emptyWorld)
  = Some "stop"%string.
Proof. vm_compute. reflexivity. Qed.


(** ** The theorems at concrete inputs *)

Lemma request_context_is_fresh_witness :
  package_chain (fst (New_args exactGrowth [] [])) ∧
  Then emptyMux (fst (New_args exactGrowth [] [])) (HandlerFunc_as_Handler testApp)
    [] emptyWorld
  = Returned (Some (rootServe (HandlerFunc_as_Handler testApp))) emptyWorld ∧
  ∃ outermost,
    Some (rootServe (HandlerFunc_as_Handler testApp)) = Some (rootServe outermost).
Proof.
  split; [right; reflexivity|]. split; [reflexivity|].
  destruct (request_context_is_fresh emptyMux (fst (New_args exactGrowth [] [])) []
              emptyWorld (Some (rootServe (HandlerFunc_as_Handler testApp))) emptyWorld)
    as (outermost & Hhh & _).
  - right. reflexivity.
  - left. exists (HandlerFunc_as_Handler testApp). reflexivity.
  - exists outermost. exact Hhh.
Defined.

Lemma Append_concatenates_in_fresh_storage_witness :
  valid_slice demoStore (constructors demoChain) ∧ valid_slice demoStore demoExtra ∧
  ∃ c' σ', Append exactGrowth demoChain demoExtra demoStore = Some (c', σ') ∧
    elems σ' (constructors c')
    = [tagMiddleware "t1,"; tagMiddleware "t2,"; tagMiddleware "t3,"].
Proof.
  split; [backed|]. split; [backed|].
  destruct (Append_concatenates_in_fresh_storage exactGrowth demoStore demoChain demoExtra)
    as (c' & σ' & HA & Hel & _); [backed | backed |].
  exists c', σ'. split; [exact HA | exact Hel].
Defined.

Lemma Append_leaves_receiver_alone_witness :
  valid_slice demoStore (constructors demoChain) ∧
  ∃ c' σ', Append_args doublingGrowth demoChain [tagMiddleware "t3,"] demoStore
           = Some (c', σ') ∧
    elems σ' (constructors demoChain) = [tagMiddleware "t1,"; tagMiddleware "t2,"] ∧
    s_len (constructors c') = 3.
Proof.
  split; [backed|].
  destruct (Append_leaves_receiver_alone doublingGrowth demoStore demoChain
              (tagMiddleware "t3,"))
    as (c' & σ' & HA & Hkeep & _ & _ & Hlen & _); [backed|].
  exists c', σ'. split; [exact HA|]. split; [exact Hkeep | exact Hlen].
Defined.

Lemma New_copies_its_input_witness :
  valid_slice demoStore demoSlice ∧
  elems (snd (New doublingGrowth demoSlice demoStore))
    (constructors (fst (New doublingGrowth demoSlice demoStore)))
  = [tagMiddleware "t1,"; tagMiddleware "t2,"].
Proof.
  split; [backed|].
  destruct (New_copies_its_input emptyMux doublingGrowth demoStore demoSlice)
    as (Hel & _); [backed|]. exact Hel.
Defined.

Lemma Append_nothing_is_identity_witness :
  valid_slice demoStore (constructors demoChain) ∧
  finalize demoChain = Some createRootHandler ∧
  ∃ c' σ', Append_args exactGrowth demoChain [] demoStore = Some (c', σ') ∧
    elems σ' (constructors c') = [tagMiddleware "t1,"; tagMiddleware "t2,"].
Proof.
  split; [backed|]. split; [reflexivity|].
  destruct (Append_nothing_is_identity emptyMux exactGrowth demoStore demoChain)
    as (c' & σ' & HA & _ & _ & Hel & _); [backed | reflexivity |].
  exists c', σ'. split; [exact HA | exact Hel].
Defined.

(** ** Where the specification and the code part *)

(** On the chain of [New()], [Then(nil)] serves a request through the
    multiplexer, which answers it "not found", while the finalizer applied
    to nil makes a handler that panics on the same request. *)
Lemma Then_nil_is_not_finalizer_of_nil :
  recorded 0 (serve_with (Then emptyMux (fst (New_args exactGrowth [] [])) None
                            (snd (New_args exactGrowth [] [])))
                0 (Some (mkRequest "GET" "/")) emptyWorld)
  = Some notFoundBody
  ∧ serve_with (createRootHandler None) 0 (Some (mkRequest "GET" "/")) emptyWorld
    = Panicked NilDereference (cancel 0 (alloc_cell emptyWorld))
  ∧ serve_with (Then emptyMux (fst (New_args exactGrowth [] [])) None
                  (snd (New_args exactGrowth [] [])))
      0 (Some (mkRequest "GET" "/")) emptyWorld
    ≠ serve_with (createRootHandler None) 0 (Some (mkRequest "GET" "/")) emptyWorld.
Proof.
  split; [vm_compute; reflexivity|]. split; [vm_compute; reflexivity|].
  intros H. vm_compute in H. discriminate H.
Qed.

(** [Append] on the zero [Chain], whose finalizer is nil, returns a chain
    whose finalizer is the root boundary. *)
Lemma zero_chain_finalizer_not_kept :
  ∃ c' σ', Append exactGrowth zeroChain nilSlice [] = Some (c', σ') ∧
    finalize c' ≠ finalize zeroChain.
Proof. eexists _, _. split; [reflexivity|]. simpl. discriminate. Qed.

(** [Then] of the zero [Chain] panics on its nil finalizer; [Then] of what
    [Append()] returns for it does not. *)
Lemma zero_chain_Then_not_kept :
  ∃ c' σ', Append_args exactGrowth zeroChain [] [] = Some (c', σ') ∧
    Then emptyMux zeroChain (HandlerFunc_as_Handler testApp) σ' emptyWorld
    = Panicked NilDereference emptyWorld ∧
    Then emptyMux c' (HandlerFunc_as_Handler testApp) σ' emptyWorld
    = Returned (Some (rootServe (HandlerFunc_as_Handler testApp))) emptyWorld ∧
    Then emptyMux c' (HandlerFunc_as_Handler testApp) σ' emptyWorld
    ≠ Then emptyMux zeroChain (HandlerFunc_as_Handler testApp) σ' emptyWorld.
Proof.
  eexists _, _. split; [reflexivity|]. split; [reflexivity|].
  split; [reflexivity|]. simpl. discriminate.
Qed.

(** ** The further theorems at concrete inputs *)

Lemma Append_twice_is_Append_of_both_witness :
  valid_slice demoStore (constructors demoChain) ∧
  ∃ c2 σ2 c3 σ3,
    elems σ2 (constructors c2)
    = [tagMiddleware "t1,"; tagMiddleware "t2,"; tagMiddleware "t3,"; tagMiddleware "t4,"] ∧
    elems σ3 (constructors c3) = elems σ2 (constructors c2).
Proof.
  split; [backed|].
  destruct (Append_twice_is_Append_of_both emptyMux doublingGrowth demoStore demoChain
              [tagMiddleware "t3,"] [tagMiddleware "t4,"])
    as (c1 & σ1 & c2 & σ2 & c3 & σ3 & _ & _ & _ & Hel2 & Hel3 & _); [backed|].
  exists c2, σ2, c3, σ3. split; [exact Hel2|]. rewrite Hel3. symmetry. exact Hel2.
Defined.

Lemma ignoring_constructor_cuts_off_the_inside_witness :
  ∃ x1 x2,
    compose [tagMiddleware "in,"] (resolve emptyMux (HandlerFunc_as_Handler testApp))
      emptyWorld = Returned x1 emptyWorld ∧
    compose [tagMiddleware "in,"] (resolve emptyMux (HandlerFunc_as_Handler panickingApp))
      emptyWorld = Returned x2 emptyWorld ∧
    Then emptyMux
      (fst (New_args exactGrowth
              ([tagMiddleware "out,"] ++ shortCircuit "stop" :: [tagMiddleware "in,"]) []))
      (HandlerFunc_as_Handler testApp)
      (snd (New_args exactGrowth
              ([tagMiddleware "out,"] ++ shortCircuit "stop" :: [tagMiddleware "in,"]) []))
      emptyWorld
    = Then emptyMux
        (fst (New_args exactGrowth
                ([tagMiddleware "out,"] ++ shortCircuit "stop" :: [tagMiddleware "in,"]) []))
        (HandlerFunc_as_Handler panickingApp)
        (snd (New_args exactGrowth
                ([tagMiddleware "out,"] ++ shortCircuit "stop" :: [tagMiddleware "in,"]) []))
        emptyWorld.
Proof.
  eexists _, _. split; [reflexivity|]. split; [reflexivity|].
  refine (proj1 (ignoring_constructor_cuts_off_the_inside emptyMux exactGrowth
            [tagMiddleware "out,"]
            (mret (HandlerFunc_as_Handler (Some (fun _ w _ => Write w "stop"))))
            [tagMiddleware "in,"]
            (HandlerFunc_as_Handler testApp) (HandlerFunc_as_Handler panickingApp)
            [] emptyWorld _ _ emptyWorld _ _)); reflexivity.
Defined.

Lemma Append_then_Then_is_Then_of_wrapped_witness :
  valid_slice demoStore (constructors demoChain) ∧
  finalize demoChain = Some createRootHandler ∧
  ∃ s,
    call_constructor (tagMiddleware "t3,")
      (resolve emptyMux (HandlerFunc_as_Handler testApp)) emptyWorld
    = Returned (Some s) emptyWorld ∧
    ∃ c' σ',
      Append_args exactGrowth demoChain [tagMiddleware "t3,"] demoStore = Some (c', σ') ∧
      Then emptyMux c' (HandlerFunc_as_Handler testApp) σ' emptyWorld
      = Then emptyMux demoChain (Some s) demoStore emptyWorld.
Proof.
  split; [backed|]. split; [reflexivity|].
  eexists. split; [reflexivity|].
  apply (Append_then_Then_is_Then_of_wrapped emptyMux exactGrowth demoStore demoChain
           (tagMiddleware "t3,") (HandlerFunc_as_Handler testApp) emptyWorld);
    [backed | reflexivity | reflexivity].
Defined.

Lemma Then_of_pure_constructors_is_pure_witness :
  Forall pure_constructor [tagMiddleware "a,"; shortCircuit "b"] ∧
  ∃ outermost,
    compose [tagMiddleware "a,"; shortCircuit "b"] (resolve emptyMux None) emptyWorld
    = Returned outermost emptyWorld ∧
    Then emptyMux (fst (New_args exactGrowth [tagMiddleware "a,"; shortCircuit "b"] []))
      None (snd (New_args exactGrowth [tagMiddleware "a,"; shortCircuit "b"] []))
      emptyWorld
    = Returned (Some (rootServe outermost)) emptyWorld.
Proof.
  assert (Forall pure_constructor [tagMiddleware "a,"; shortCircuit "b"]) as Hpure.
  { repeat constructor; intros h w; eexists; reflexivity. }
  split; [exact Hpure|].
  destruct (Then_of_pure_constructors_is_pure emptyMux exactGrowth
              [tagMiddleware "a,"; shortCircuit "b"] None [] emptyWorld Hpure)
    as (outermost & Hcompose & Hthen & _).
  exists outermost. split; [exact Hcompose | exact Hthen].
Defined.
